(** * cli_wrapper: configuration merge and execution harness

    A shallow embedding of [cli_wrapper/configuration.py] and
    [cli_wrapper/code_runners.py], and the properties of the two
    subsystems: the recursive merge of configuration files and the three
    ways of running the entry point. *)

From Stdlib Require Import Ascii String ZArith.
From stdpp Require Import base strings list gmap.

Local Open Scope string_scope.
Local Open Scope list_scope.
Local Set Warnings "-register-all".

(** ** Python objects

    What [json.load] and [yaml.safe_load] hand back, and what is stored in a
    globals dict: [None], booleans, integers, strings, lists and dicts with
    string keys.  A dict keeps its items in insertion order, which is the
    order [dict.items()] iterates in, so it is an association list.

    These are the objects [json.dump] writes.  What the YAML loader can
    return beyond them (dates, binary data, sets, keys that are not
    strings) is not represented: sources are taken to hold objects of
    these kinds only. *)

Inductive value : Type :=
| VNone
| VBool (b : bool)
| VInt (z : Z)
| VStr (s : string)
| VList (l : list value)
| VDict (d : list (string * value)).

Abbreviation pydict := (list (string * value)).

(** [d[key]]: [None] stands for [KeyError]. *)
Fixpoint dict_get (d : pydict) (key : string) : option value :=
  match d with
  | [] => None
  | (k, v) :: d' => if decide (k = key) then Some v else dict_get d' key
  end.

(** [d.keys()] *)
Definition keys (d : pydict) : list string := d.*1.

(** ** Paths

    [pathlib] is library code; the three attributes the program reads are
    modelled on pure POSIX paths.  [resolve], which consults the working
    directory and the links of the file system, stays a parameter of the
    functions that call it. *)

(** [str.rfind(".")]; [None] stands for [-1]. *)
Fixpoint rfind_dot (s : string) : option nat :=
  match s with
  | EmptyString => None
  | String c s' =>
      match rfind_dot s' with
      | Some i => Some (S i)
      | None => if decide (c = "."%char) then Some 0 else None
      end
  end.

(** The components of a path between its slashes. *)
Fixpoint split_slash (s : string) : list string :=
  match s with
  | EmptyString => [EmptyString]
  | String c s' =>
      if decide (c = "/"%char) then EmptyString :: split_slash s'
      else match split_slash s' with
           | [] => [String c EmptyString]
           | part :: parts => String c part :: parts
           end
  end.

(** [Path(p).name]: the last component, empty and ["."] components dropped. *)
Definition path_name (p : string) : string :=
  List.last (List.filter (fun part => negb (String.eqb part "" || String.eqb part "."))
                         (split_slash p)) "".

(** [Path(p).suffix]: from the last dot of the name, unless that dot is the
    first or the last character. *)
Definition suffix (p : string) : string :=
  let name := path_name p in
  match rfind_dot name with
  | Some i =>
      if ((0 <? i) && (i <? String.length name - 1))%nat
      then substring i (String.length name - i) name
      else ""
  | None => ""
  end.

(** [Path(p).stem]: the name without its suffix. *)
Definition stem (p : string) : string :=
  let name := path_name p in
  match rfind_dot name with
  | Some i =>
      if ((0 <? i) && (i <? String.length name - 1))%nat
      then substring 0 i name
      else name
  | None => name
  end.

(** ** Files, exceptions and the effect monad

    A readable file is represented by what each of the two loaders makes of
    its text: a Python object, or [None] when the loader raises.

    Files are kept under their path strings, taken as written: two strings
    name the same file exactly when they are equal.  Two spellings of one
    file (a leading [./], a relative and an absolute path, a link) are
    different keys here. *)

Record file : Type := File {
  as_json : option value;
  as_yaml : option value
}.

(** The text [json.dump(obj, ostream, indent=2)] leaves behind: JSON, which
    both loaders read back as [obj]. *)
Definition dumped (obj : value) : file :=
  {| as_json := Some obj; as_yaml := Some obj |}.

Inductive exn : Type :=
| FileNotFoundError (path : string)
| JSONDecodeError
| YAMLError
| ValueError (suffix_repr : string).
(* [ValueError]: the message of configuration.py line 70 is a fixed text
   followed by [repr(path.suffix)]; the constructor carries that suffix, the
   only part of the message that varies. *)

Inductive result (A : Type) : Type :=
| Ok (a : A)
| Raise (e : exn).
Arguments Ok {A} a.
Arguments Raise {A} e.

(** Steps of [build_config_file] worth observing. *)
Inductive event : Type :=
| EvOpen (path : string)
| EvMerge (obj update : value)
| EvDump (path : string) (obj : value).

Record world : Type := World {
  fs : gmap string file;
  trace : list event
}.

Definition M (A : Type) : Type := world -> result A * world.

#[global] Instance M_ret : MRet M := fun A (a : A) (w : world) => (Ok a, w).

#[global] Instance M_bind : MBind M := fun A B (k : A -> M B) (m : M A) (w : world) =>
  match m w with
  | (Ok a, w') => k a w'
  | (Raise e, w') => (Raise e, w')
  end.

Definition raise {A} (e : exn) : M A := fun w => (Raise e, w).

Definition emit (e : event) : M unit :=
  fun w => (Ok tt, {| fs := fs w; trace := trace w ++ [e] |}).

Module Configuration.

(** [_merge_dicts(obj, update)], configuration.py lines 12-34.

    The guard returns [update] unless both arguments are dicts.  Otherwise
    the loop runs over [obj.items()] only: [update[key]] either gives a
    value to recurse on or raises [KeyError], and then the value of [obj] is
    kept. *)
Fixpoint _merge_dicts (obj update : value) {struct obj} : value :=
  match obj, update with
  | VDict o, VDict u =>
      VDict (List.map (fun item : string * value =>
                         let (key, value) := item in
                         match dict_get u key with
                         | Some update_key => (key, _merge_dicts value update_key)
                         | None => (key, value)
                         end) o)
  | _, _ => update
  end.

(** [path.open("r")] *)
Definition open_read (path : string) : M file :=
  fun w =>
    match fs w !! path with
    | Some stream => emit (EvOpen path);; mret stream
    | None => raise (FileNotFoundError path)
    end w.

Definition json_load (stream : file) : M value :=
  match as_json stream with
  | Some file_obj => mret file_obj
  | None => raise JSONDecodeError
  end.

Definition yaml_safe_load (stream : file) : M value :=
  match as_yaml stream with
  | Some file_obj => mret file_obj
  | None => raise YAMLError
  end.

(** [with open(path, "w") as ostream: json.dump(obj, ostream, indent=2)].
    Every object of type [value] is one [json.dump] accepts, so the dump
    is taken to succeed; a dump that raises on an object of another kind,
    after the file has been opened for writing, is outside the model. *)
Definition json_dump_to (path : string) (obj : value) : M unit :=
  fun w => (Ok tt, {| fs := <[path := dumped obj]> (fs w);
                      trace := trace w ++ [EvDump path obj] |}).

(** The body of the [with path.open("r")] block, lines 63-71: the file is
    opened first, then the suffix picks the loader or raises. *)
Definition load (file : string) : M value :=
  let path := file in
  stream ← open_read path;
  if decide (suffix path = ".json") then json_load stream
  else if decide (suffix path = ".yaml" \/ suffix path = ".yml") then yaml_safe_load stream
  else raise (ValueError (suffix path)).

(** The [for file in filenames] loop, lines 61-72, from accumulator [obj]. *)
Fixpoint merge_files (filenames : list string) (obj : value) : M value :=
  match filenames with
  | [] => mret obj
  | file :: rest =>
      file_obj ← load file;
      emit (EvMerge obj file_obj);;
      merge_files rest (_merge_dicts obj file_obj)
  end.

Section BuildConfigFile.

(** [ROOT_CONFIG_FILE = Path(PROJECT_ROOT, "configuration.json")], where
    [PROJECT_ROOT] is the directory of the module at run time. *)
Variable ROOT_CONFIG_FILE : string.

(** [build_config_file], lines 37-76, called with the sources in
    ascending order of precedence. *)
Definition build_config_file (filenames : list string) : M value :=
  obj ← merge_files filenames (VDict []);
  json_dump_to ROOT_CONFIG_FILE obj;;
  mret obj.

End BuildConfigFile.

(** What [load] returns for a path of a given file system. *)
Definition parse (files : gmap string file) (path : string) : result value :=
  fst (load path {| fs := files; trace := [] |}).

End Configuration.

Module CodeRunners.

Section Resolve.

(** [str(script.resolve())]: the absolute path of the script, with links
    followed. *)
Variable resolve : string -> string.

(** [make_script_globals(script, name="__main__", **kwargs)],
    code_runners.py lines 8-28.  [name = None] is the call that leaves the
    keyword out.  [G.update(kwargs)] lets every item of [kwargs] replace
    what [G] holds under the same key. *)
Definition make_script_globals (script : string) (name : option string)
    (kwargs : gmap string value) : gmap string value :=
  let name := default "__main__" name in
  let G : gmap string value :=
    <["__cached__" := VNone]>
      (<["__package__" := VNone]>
         (<["__name__" := VStr name]>
            (<["__file__" := VStr (resolve script)]> ∅))) in
  kwargs ∪ G.

(** The two entry points of [runpy]. *)
Inductive runner : Type := run_module | run_path.

(** A call [runner(target, init_globals=..., run_name=...)], and the file
    both output streams are redirected into while it runs, with the mode
    the file was opened in. *)
Record runpy_call : Type := RunpyCall {
  call_runner : runner;
  call_target : string;
  call_init_globals : gmap string value;
  call_run_name : string;
  call_redirect : option (string * string)
}.

(** [run_script(script, globals, outfile, write_mode="w", as_module=True)],
    lines 99-131, as the call of [runpy] it makes. *)
Definition run_script (script : string) (globals : gmap string value)
    (outfile : option string) (write_mode : string) (as_module : bool)
    : runpy_call :=
  let runner := if as_module then run_module else run_path in
  match outfile with
  | Some out =>
      {| call_runner := runner;
         call_target := stem script;
         call_init_globals := globals;
         call_run_name := "__main__";
         call_redirect := Some (out, write_mode) |}
  | None =>
      {| call_runner := runner;
         call_target := resolve script;
         call_init_globals := globals;
         call_run_name := "__main__";
         call_redirect := None |}
  end.

End Resolve.

(** *** [wrap_with_shell_command], lines 48-96

    [subprocess.Popen(shell_cmd, stdout=..., stderr=...)]: the argument
    vector of the child, and the file both of its output streams go to with
    the mode it was opened in ([None]: two pipes). *)
Record popen : Type := Popen {
  args : list string;
  output_file : option (string * string)
}.

(** Each round of [while True] calls [process.wait()], which either returns
    the return code of the child or is interrupted by [KeyboardInterrupt].
    The list of these outcomes, one per call, is what the environment
    contributes to a run. *)
Inductive wait_outcome : Type :=
| Returns (returncode : Z)
| KeyboardInterrupt.

Inductive signal : Type := SIGINT.

Inductive parent : Type :=
| Waiting
| Exited (status : Z).

Record harness : Type := Harness {
  process : popen;
  parent_state : parent;
  (* signals sent to the child so far, oldest first *)
  sent : list signal;
  (* the return code of the child once [process.wait()] has returned *)
  child_returncode : option Z
}.

(** After [subprocess.Popen]: the parent is about to enter the loop. *)
Definition spawned (process : popen) : harness :=
  {| process := process; parent_state := Waiting; sent := [];
     child_returncode := None |}.

(** One round of the loop body, lines 92-96. *)
Definition wait_round (outcome : wait_outcome) (h : harness) : harness :=
  match outcome with
  | Returns returncode =>
      (* process.wait() returned; exit(0) *)
      {| process := process h;
         parent_state := Exited 0;
         sent := sent h;
         child_returncode := Some returncode |}
  | KeyboardInterrupt =>
      (* except KeyboardInterrupt: process.send_signal(signal.SIGINT) *)
      {| process := process h;
         parent_state := parent_state h;
         sent := sent h ++ [SIGINT];
         child_returncode := child_returncode h |}
  end.

(** [while True]: rounds follow one another until [exit] ends the parent.
    When the outcomes run out the parent is left where it is, blocked in
    [process.wait()].  An outcome is how one call of [process.wait()]
    ends: a [KeyboardInterrupt] here is one exception raised by the call,
    not one signal received, and nothing interrupts the handler;
    [signal_loop] below lifts both restrictions. *)
Fixpoint wait_loop (outcomes : list wait_outcome) (h : harness) : harness :=
  match outcomes with
  | [] => h
  | outcome :: rest =>
      let h' := wait_round outcome h in
      match parent_state h' with
      | Exited _ => h'
      | Waiting => wait_loop rest h'
      end
  end.

Section Shlex.

(** [shlex.split] and [shlex.quote].  A command that [shlex.split] rejects,
    or that cannot be started, ends the call before there is a child; the
    model is of the calls that spawn one. *)
Variable shlex_split : string -> list string.
Variable shlex_quote : string -> string.

Definition wrap_with_shell_command (cmd script : string)
    (outfile : option string) (write_mode : string)
    (outcomes : list wait_outcome) : harness :=
  let shell_cmd := List.map shlex_quote (shlex_split cmd) in
  let shell_cmd := shell_cmd ++ [shlex_quote script] in
  let process :=
    match outfile with
    | Some out => {| args := shell_cmd; output_file := Some (out, write_mode) |}
    | None => {| args := shell_cmd; output_file := None |}
    end in
  wait_loop outcomes (spawned process).

End Shlex.

(** The interrupts that arrive before the child exits. *)
Fixpoint interrupts_before_exit (outcomes : list wait_outcome) : nat :=
  match outcomes with
  | KeyboardInterrupt :: rest => S (interrupts_before_exit rest)
  | _ => 0
  end.

(** *** The loop again, signal by signal

    [wait_loop] takes a [KeyboardInterrupt] as something [process.wait()]
    raises, once per call.  The parent does not receive exceptions, it
    receives signals, and Python turns a pending [SIGINT] into a
    [KeyboardInterrupt] wherever the main thread happens to be.  Two things
    follow for lines 92-96.  Signals that arrive close together surface as
    one exception, so that one [except] clause answers them all.  And a
    signal that arrives while the [except] clause itself runs (line 96)
    raises outside the [try]: nothing catches it and the parent ends there,
    whatever the child is doing. *)

(** How line 96, [process.send_signal(signal.SIGINT)], ends. *)
Inductive handler_outcome : Type :=
| HandlerCompletes
  (* a [SIGINT] arrives while the handler runs; [signal_sent] tells whether
     [send_signal] had done its work by then *)
| HandlerInterrupted (signal_sent : bool).

(** One round of [while True], as the environment shapes it.

    [WaitInterrupted merged collected handler]: line 93 raises
    [KeyboardInterrupt], which stands for [1 + merged] signals received.
    [collected] is the return code of the child when it has exited and been
    collected by the time [send_signal] looks at it ([Popen.wait] waits
    briefly for the child after a first interrupt, and [send_signal] polls
    before it sends): [send_signal] then sends nothing. *)
Inductive round : Type :=
| WaitReturns (returncode : Z)
| WaitInterrupted (merged : nat) (collected : option Z) (handler : handler_outcome).

Inductive parent_end : Type :=
| InLoop
| ExitZero                      (* [exit(0)], line 94 *)
| UncaughtKeyboardInterrupt.    (* raised at line 96, outside the [try] *)

Record signal_run : Type := SignalRun {
  ending : parent_end;
  (* interrupt signals the parent received during [process.wait()] *)
  received_in_wait : nat;
  (* signals sent to the child, oldest first *)
  forwarded : list signal;
  (* the return code of the child once it has been collected *)
  child_collected : option Z
}.

Definition started : signal_run :=
  {| ending := InLoop; received_in_wait := 0; forwarded := [];
     child_collected := None |}.

(** One round, lines 92-96.  A child that has been collected stays
    collected: [process.wait()] then returns its code at once and
    [send_signal] sends nothing. *)
Definition signal_round (r : round) (s : signal_run) : signal_run :=
  match r with
  | WaitReturns returncode =>
      (* process.wait() returned; exit(0) *)
      {| ending := ExitZero;
         received_in_wait := received_in_wait s;
         forwarded := forwarded s;
         child_collected := match child_collected s with
                            | Some code => Some code
                            | None => Some returncode
                            end |}
  | WaitInterrupted merged collected handler =>
      let collected := match child_collected s with
                       | Some code => Some code
                       | None => collected
                       end in
      (* what process.send_signal(signal.SIGINT) sends *)
      let sending := match collected with
                     | Some _ => []
                     | None => [SIGINT]
                     end in
      match handler with
      | HandlerCompletes =>
          {| ending := InLoop;
             received_in_wait := received_in_wait s + S merged;
             forwarded := forwarded s ++ sending;
             child_collected := collected |}
      | HandlerInterrupted signal_sent =>
          {| ending := UncaughtKeyboardInterrupt;
             received_in_wait := received_in_wait s + S merged;
             forwarded := forwarded s ++ (if signal_sent then sending else []);
             child_collected := collected |}
      end
  end.

Fixpoint signal_loop (rounds : list round) (s : signal_run) : signal_run :=
  match rounds with
  | [] => s
  | r :: rest =>
      let s' := signal_round r s in
      match ending s' with
      | InLoop => signal_loop rest s'
      | _ => s'
      end
  end.

(** A round of [wait_loop] seen as a round of [signal_loop]: one signal
    for each interrupted wait, a child that is still running when the
    signal is sent on, and no signal while the handler runs. *)
Definition plain_round (outcome : wait_outcome) : round :=
  match outcome with
  | Returns returncode => WaitReturns returncode
  | KeyboardInterrupt => WaitInterrupted 0 None HandlerCompletes
  end.

End CodeRunners.

Import Configuration CodeRunners.

(** ** Vocabulary of the statements *)

(** The suffixes [load] has a loader for. *)
Definition recognized (sfx : string) : Prop :=
  sfx = ".json" \/ sfx = ".yaml" \/ sfx = ".yml".

Definition is_dump (ev : event) : bool :=
  match ev with EvDump _ _ => true | _ => false end.

Definition is_merge (ev : event) : bool :=
  match ev with EvMerge _ _ => true | _ => false end.

(** How many times the loop has called [_merge_dicts]. *)
Definition merges (tr : list event) : nat := length (List.filter is_merge tr).

(** The reading of "an unsupported extension fails before any merge work
    begins": some source of the list has an unsupported suffix, the call
    raises the error for it, and no merge has been made by then. *)
Definition fails_before_merging (ROOT_CONFIG_FILE : string)
    (filenames : list string) (w : world) : Prop :=
  exists path w',
    path ∈ filenames /\ ~ recognized (suffix path) /\
    build_config_file ROOT_CONFIG_FILE filenames w
      = (Raise (ValueError (suffix path)), w') /\
    merges (trace w') = merges (trace w).

(** ** Sample inputs *)

Definition sample_root : string := "configuration.json".

(** [base.json] holds [{"a": 1, "n": {"x": 1}}], [local.yaml] holds
    [{"a": null, "b": 2}]; [notes.toml] exists but has no loader. *)
Definition base_obj : value :=
  VDict [("a", VInt 1); ("n", VDict [("x", VInt 1)])].

Definition local_obj : value :=
  VDict [("a", VNone); ("b", VInt 2)].

Definition sample_world : world :=
  {| fs := {[ "base.json" := dumped base_obj;
              "local.yaml" := dumped local_obj;
              "notes.toml" := File None None ]};
     trace := [] |}.

Definition sample_resolve (p : string) : string := String.append "/srv/app/" p.

(** Keyword arguments that replace [__name__] and add a key of their own,
    with a dict as its value. *)
Definition sample_kwargs : gmap string value :=
  {[ "__name__" := VStr "worker"; "options" := VDict [("level", VInt 2)] ]}.

(** ** Further vocabulary *)

(** [isinstance(v, dict)] *)
Definition is_dict (v : value) : bool :=
  match v with VDict _ => true | _ => false end.

(** No key occurs twice in a dict, at any depth reached through dicts: what
    every Python dict satisfies. *)
Fixpoint unique_keys (v : value) : bool :=
  match v with
  | VDict d =>
      bool_decide (NoDup (keys d)) &&
      forallb (fun item : string * value => let (_, x) := item in unique_keys x) d
  | _ => true
  end.

(** The return code of the first [process.wait()] that returns. *)
Fixpoint first_return (outcomes : list wait_outcome) : option Z :=
  match outcomes with
  | [] => None
  | Returns returncode :: _ => Some returncode
  | KeyboardInterrupt :: rest => first_return rest
  end.

(** A second file system: [items.json] holds the list [[1, 2]],
    [broken.json] is not JSON, [deep.yml] holds [{"n": {"y": 2}}]. *)
Definition items_obj : value := VList [VInt 1; VInt 2].

Definition deep_obj : value := VDict [("n", VDict [("y", VInt 2)])].

Definition mixed_world : world :=
  {| fs := {[ "base.json" := dumped base_obj;
              "items.json" := dumped items_obj;
              "deep.yml" := dumped deep_obj;
              "broken.json" := File None (Some VNone) ]};
     trace := [EvOpen "earlier"] |}.

(** ** Vocabulary for the signals *)

(** No signal arrives while the handler of this round runs. *)
Definition handler_completes (r : round) : bool :=
  match r with
  | WaitInterrupted _ _ (HandlerInterrupted _) => false
  | _ => true
  end.

(** The interrupted waits that find the child still running, up to the
    first round in which the child is collected. *)
Fixpoint answered (rounds : list round) : nat :=
  match rounds with
  | WaitInterrupted _ None _ :: rest => S (answered rest)
  | _ => 0
  end.

(** The reading of "the parent never terminates before the child has
    exited, and every interrupt it receives during the wait is forwarded":
    a parent that has left the loop has a child that exited, and as many
    signals went to the child as the parent received while waiting. *)
Definition forwards_every_interrupt (rounds : list round) : Prop :=
  let s := signal_loop rounds started in
  (ending s <> InLoop -> is_Some (child_collected s)) /\
  length (forwarded s) = received_in_wait s.

(** ** The recursive merge *)

Lemma merge_dicts_unfold (o u : pydict) :
  _merge_dicts (VDict o) (VDict u)
  = VDict (List.map (fun item : string * value =>
                       let (key, value) := item in
                       match dict_get u key with
                       | Some update_key => (key, _merge_dicts value update_key)
                       | None => (key, value)
                       end) o).
Proof. reflexivity. Qed.

Lemma merge_dicts_keys (o u : pydict) :
  exists r, _merge_dicts (VDict o) (VDict u) = VDict r /\ keys r = keys o.
Proof.
  rewrite merge_dicts_unfold. eexists. split; [reflexivity|].
  unfold keys. induction o as [|[key v] o IH]; [reflexivity|].
  cbn [List.map fmap list_fmap]. f_equal; [|exact IH].
  destruct (dict_get u key); reflexivity.
Qed.

(** Merging into the empty dict gives the empty dict. *)
Lemma merge_dicts_empty (u : pydict) :
  _merge_dicts (VDict []) (VDict u) = VDict [].
Proof. reflexivity. Qed.

(** A key of the base that the update lacks keeps its value. *)
Lemma merge_dicts_base_only (o u : pydict) (key : string) :
  dict_get u key = None ->
  exists r, _merge_dicts (VDict o) (VDict u) = VDict r /\
            dict_get r key = dict_get o key.
Proof.
  intros Hu. rewrite merge_dicts_unfold. eexists. split; [reflexivity|].
  induction o as [|[k v] o IH]; [reflexivity|].
  cbn [List.map dict_get].
  destruct (decide (k = key)) as [->|Hne].
  - rewrite Hu. cbn [dict_get]. rewrite decide_True by reflexivity. reflexivity.
  - destruct (dict_get u k); cbn [dict_get];
      rewrite decide_False by exact Hne; exact IH.
Qed.

(** A key the base lacks is absent from the merge, whatever the update. *)
Lemma merge_dicts_update_only (o u : pydict) (key : string) :
  dict_get o key = None ->
  exists r, _merge_dicts (VDict o) (VDict u) = VDict r /\
            dict_get r key = None.
Proof.
  intros Ho. rewrite merge_dicts_unfold. eexists. split; [reflexivity|].
  induction o as [|[k v] o IH]; [reflexivity|].
  cbn [List.map dict_get] in *.
  destruct (decide (k = key)) as [->|Hne]; [discriminate|].
  destruct (dict_get u k); cbn [dict_get];
    rewrite decide_False by exact Hne; exact (IH Ho).
Qed.

(** ** Running the loader and the loop *)

Lemma bind_run {A B} (m : M A) (k : A -> M B) (w : world) :
  (m ≫= k) w = match m w with
               | (Ok a, w') => k a w'
               | (Raise e, w') => (Raise e, w')
               end.
Proof. reflexivity. Qed.

(** [load] leaves the files alone and logs the opening of the file. *)
Lemma load_run (file : string) (w : world) :
  load file w
  = (parse (fs w) file,
     match fs w !! file with
     | Some _ => {| fs := fs w; trace := trace w ++ [EvOpen file] |}
     | None => w
     end).
Proof.
  unfold parse, load, open_read. rewrite !bind_run. cbn [fs trace].
  destruct (fs w !! file) as [stream|]; [|reflexivity].
  rewrite !bind_run. cbn.
  unfold json_load, yaml_safe_load.
  repeat case_decide; try reflexivity;
    match goal with
    | |- context [as_json ?s] => destruct (as_json s); reflexivity
    | |- context [as_yaml ?s] => destruct (as_yaml s); reflexivity
    end.
Qed.

Lemma load_fs (file : string) (w : world) : fs (load file w).2 = fs w.
Proof. rewrite load_run. cbn. destruct (fs w !! file); reflexivity. Qed.

Lemma load_trace (file : string) (w : world) :
  exists tr, trace (load file w).2 = trace w ++ tr /\
             Forall (fun ev => is_dump ev = false /\ is_merge ev = false) tr.
Proof.
  rewrite load_run. cbn. destruct (fs w !! file).
  - exists [EvOpen file]. split; [reflexivity|]. repeat constructor.
  - exists []. split; [by rewrite app_nil_r|constructor].
Qed.

Lemma merge_files_cons (file : string) (rest : list string) (obj : value) (w : world) :
  merge_files (file :: rest) obj w
  = match load file w with
    | (Ok file_obj, w1) =>
        merge_files rest (_merge_dicts obj file_obj)
          {| fs := fs w1; trace := trace w1 ++ [EvMerge obj file_obj] |}
    | (Raise e, w1) => (Raise e, w1)
    end.
Proof.
  cbn [merge_files]. rewrite bind_run.
  destruct (load file w) as [[file_obj|e] w1]; reflexivity.
Qed.

(** A run of the loop never touches the files and never dumps. *)
Lemma merge_files_frame (filenames : list string) :
  forall (obj : value) (w : world),
    fs (merge_files filenames obj w).2 = fs w /\
    exists tr, trace (merge_files filenames obj w).2 = trace w ++ tr /\
               Forall (fun ev => is_dump ev = false) tr.
Proof.
  induction filenames as [|file rest IH]; intros obj w.
  - cbn. split; [reflexivity|]. exists []. split; [by rewrite app_nil_r|constructor].
  - rewrite merge_files_cons.
    pose proof (load_fs file w) as Hfs.
    destruct (load_trace file w) as (tr1 & Htr1 & Hnd1).
    destruct (load file w) as [[file_obj|e] w1]; cbn [snd] in *.
    + match goal with
      | |- context [merge_files rest ?o ?w2] =>
          destruct (IH o w2) as (Hfs2 & tr2 & Htr2 & Hnd2)
      end.
      cbn [fs trace] in *. split; [congruence|].
      exists (tr1 ++ EvMerge obj file_obj :: tr2).
      split.
      * rewrite Htr2, Htr1, <- !app_assoc. reflexivity.
      * apply Forall_app. split; [|constructor; [reflexivity|exact Hnd2]].
        eapply Forall_impl; [exact Hnd1|]. cbn. tauto.
    + split; [exact Hfs|]. exists tr1. split; [exact Htr1|].
      eapply Forall_impl; [exact Hnd1|]. cbn. tauto.
Qed.

Lemma merge_files_app (pre rest : list string) :
  forall (obj : value) (w : world),
    merge_files (pre ++ rest) obj w
    = match merge_files pre obj w with
      | (Ok obj', w1) => merge_files rest obj' w1
      | (Raise e, w1) => (Raise e, w1)
      end.
Proof.
  induction pre as [|file pre IH]; intros obj w; [reflexivity|].
  rewrite <- app_comm_cons, !merge_files_cons.
  destruct (load file w) as [[file_obj|e] w1]; [apply IH|reflexivity].
Qed.

(** Sources that all load are all merged: one merge each. *)
Lemma merge_files_loadable (pre : list string) :
  forall (obj : value) (w : world),
    (forall p, p ∈ pre -> exists v, parse (fs w) p = Ok v) ->
    exists obj' w1,
      merge_files pre obj w = (Ok obj', w1) /\ fs w1 = fs w /\
      merges (trace w1) = merges (trace w) + length pre.
Proof.
  induction pre as [|file pre IH]; intros obj w Hall.
  - exists obj, w. cbn. split; [reflexivity|]. split; [reflexivity|lia].
  - destruct (Hall file) as [v Hv]; [left|].
    rewrite merge_files_cons, load_run, Hv.
    match goal with
    | |- context [merge_files pre ?o ?w2] => destruct (IH o w2) as (obj' & w1 & Hrun & Hfs & Hm)
    end.
    { cbn [fs]. intros p Hp.
      replace (fs match fs w !! file with Some _ => _ | None => w end) with (fs w)
        by (destruct (fs w !! file); reflexivity).
      apply Hall. by right. }
    exists obj', w1. split; [exact Hrun|].
    cbn [fs trace] in *. split.
    + rewrite Hfs. destruct (fs w !! file); reflexivity.
    + rewrite Hm. unfold merges. rewrite List.filter_app, length_app. cbn.
      destruct (fs w !! file); cbn [trace];
        [rewrite List.filter_app, length_app; cbn|]; lia.
Qed.

(** Sources that all parse to dicts leave the accumulator empty. *)
Lemma merge_files_dicts (filenames : list string) :
  forall (w : world),
    (forall p, p ∈ filenames -> exists d, parse (fs w) p = Ok (VDict d)) ->
    (merge_files filenames (VDict []) w).1 = Ok (VDict []).
Proof.
  induction filenames as [|file rest IH]; intros w Hall; [reflexivity|].
  destruct (Hall file) as [d Hd]; [left|].
  rewrite merge_files_cons, load_run, Hd, merge_dicts_empty.
  apply IH. cbn [fs]. intros p Hp.
  replace (fs match fs w !! file with Some _ => _ | None => w end) with (fs w)
    by (destruct (fs w !! file); reflexivity).
  apply Hall. by right.
Qed.

Lemma build_config_file_run (ROOT_CONFIG_FILE : string) (filenames : list string)
    (w : world) :
  build_config_file ROOT_CONFIG_FILE filenames w
  = match merge_files filenames (VDict []) w with
    | (Ok obj, w1) =>
        (Ok obj, {| fs := <[ROOT_CONFIG_FILE := dumped obj]> (fs w1);
                    trace := trace w1 ++ [EvDump ROOT_CONFIG_FILE obj] |})
    | (Raise e, w1) => (Raise e, w1)
    end.
Proof.
  unfold build_config_file. rewrite bind_run.
  destruct (merge_files filenames (VDict []) w) as [[obj|e] w1]; reflexivity.
Qed.

(** A source [load] accepts has one of the three suffixes. *)
Lemma parse_ok_recognized (files : gmap string file) (path : string) (v : value) :
  parse files path = Ok v -> recognized (suffix path).
Proof.
  unfold parse, load, open_read, recognized. rewrite !bind_run. cbn [fs].
  destruct (files !! path) as [stream|]; [|discriminate].
  rewrite !bind_run. cbn.
  repeat case_decide; first [tauto | discriminate].
Qed.

(** An existing source with another suffix makes [load] raise [ValueError]. *)
Lemma parse_unsupported (files : gmap string file) (path : string) :
  is_Some (files !! path) -> ~ recognized (suffix path) ->
  parse files path = Raise (ValueError (suffix path)).
Proof.
  intros [stream Hs] Hbad.
  unfold parse, load, open_read, recognized in *. rewrite !bind_run. cbn [fs].
  rewrite Hs, !bind_run. cbn.
  repeat case_decide; first [tauto | reflexivity].
Qed.

Lemma merge_files_unsupported (filenames : list string) :
  forall (obj : value) (w : world),
    (exists p, p ∈ filenames /\ ~ recognized (suffix p)) ->
    exists e, (merge_files filenames obj w).1 = Raise e.
Proof.
  induction filenames as [|file rest IH]; intros obj w (p & Hp & Hbad).
  - by apply elem_of_nil in Hp.
  - rewrite merge_files_cons, load_run.
    destruct (parse (fs w) file) as [file_obj|e] eqn:Hparse; [|by exists e].
    apply IH. exists p. split; [|exact Hbad].
    apply elem_of_cons in Hp as [->|Hp]; [|exact Hp].
    exfalso. apply Hbad. eapply parse_ok_recognized, Hparse.
Qed.

(** ** Configuration merge: the claims *)

(** C1 (merge precedence), evaluated where the code departs from it.  With
    [base.json] = [{"a": 1, "n": {"x": 1}}] merged before [local.yaml] =
    [{"a": null, "b": 2}], the key ["a"] is present in the later source, with
    value null, yet the merged configuration is the empty dict and has no
    ["a"] at all. *)
Theorem later_source_value_is_lost :
  parse (fs sample_world) "local.yaml" = Ok local_obj /\
  (exists d, local_obj = VDict d /\ dict_get d "a" = Some VNone) /\
  exists merged,
    (build_config_file sample_root ["base.json"; "local.yaml"] sample_world).1
      = Ok (VDict merged) /\
    dict_get merged "a" = None.
Proof.
  split; [vm_compute; reflexivity|]. split.
  - eexists. split; reflexivity.
  - exists []. split; [vm_compute; reflexivity|reflexivity].
Qed.

(** C2 (keys on one side only), evaluated where the code departs from it.
    Merging [{"a": 1, "n": {"x": 1}}] with [{"a": null, "b": 2}] keeps
    ["n"], which only the base has, with its base value; but ["b"], which
    only the update has, is not added. *)
Theorem update_only_key_is_not_added :
  exists r,
    _merge_dicts base_obj local_obj = VDict r /\
    dict_get r "n" = Some (VDict [("x", VInt 1)]) /\
    dict_get [("a", VNone); ("b", VInt 2)] "b" = Some (VInt 2) /\
    dict_get [("a", VInt 1); ("n", VDict [("x", VInt 1)])] "b" = None /\
    dict_get r "b" = None.
Proof. eexists. repeat split; reflexivity. Qed.

(** C3: when both arguments of [_merge_dicts] are dicts, the result is a
    dict with exactly the keys of the first argument, in the same order.  So
    whenever every source parses to a dict, [build_config_file] returns the
    empty dict, and the empty dict is what is dumped into the root
    configuration file as the last step. *)
Theorem merge_keeps_exactly_the_base_keys :
  (forall o u : pydict,
     exists r, _merge_dicts (VDict o) (VDict u) = VDict r /\ keys r = keys o) /\
  (forall (ROOT_CONFIG_FILE : string) (filenames : list string) (w : world),
     (forall p, p ∈ filenames -> exists d, parse (fs w) p = Ok (VDict d)) ->
     exists tr,
       build_config_file ROOT_CONFIG_FILE filenames w
       = (Ok (VDict []),
          {| fs := <[ROOT_CONFIG_FILE := dumped (VDict [])]> (fs w);
             trace := trace w ++ tr ++ [EvDump ROOT_CONFIG_FILE (VDict [])] |}) /\
       Forall (fun ev => is_dump ev = false) tr).
Proof.
  split; [exact merge_dicts_keys|].
  intros ROOT filenames w Hall.
  rewrite build_config_file_run.
  pose proof (merge_files_dicts filenames w Hall) as Hres.
  destruct (merge_files_frame filenames (VDict []) w) as (Hfs & tr & Htr & Hnd).
  destruct (merge_files filenames (VDict []) w) as [r w1]. cbn [fst snd] in *.
  subst r. exists tr. split; [|exact Hnd].
  rewrite Hfs, Htr, <- app_assoc. reflexivity.
Qed.

Lemma merge_keeps_exactly_the_base_keys_witness :
  exists tr,
    build_config_file sample_root ["base.json"; "local.yaml"] sample_world
    = (Ok (VDict []),
       {| fs := <[sample_root := dumped (VDict [])]> (fs sample_world);
          trace := trace sample_world ++ tr ++ [EvDump sample_root (VDict [])] |}) /\
    Forall (fun ev => is_dump ev = false) tr.
Proof.
  apply (proj2 merge_keeps_exactly_the_base_keys).
  intros p Hp.
  apply elem_of_cons in Hp as [->|Hp]; [eexists; vm_compute; reflexivity|].
  apply elem_of_cons in Hp as [->|Hp]; [eexists; vm_compute; reflexivity|].
  by apply elem_of_nil in Hp.
Defined.

(** C4 (single source), evaluated where the code departs from it.  The one
    source [base.json] parses to [{"a": 1, "n": {"x": 1}}], but merging the
    list that holds only this source returns the empty dict. *)
Theorem single_source_is_not_returned :
  parse (fs sample_world) "base.json" = Ok base_obj /\
  (build_config_file sample_root ["base.json"] sample_world).1 = Ok (VDict []) /\
  base_obj <> VDict [].
Proof.
  split; [vm_compute; reflexivity|]. split; [vm_compute; reflexivity|].
  discriminate.
Qed.

(** C7, as the code has it.  A list with a source of unsupported suffix
    always makes the call fail, and nothing is written.  The error is the
    [ValueError] that carries the offending suffix (the suffix only) when
    the loop gets as far as that source and can open it: every source
    before it has been loaded and merged by then, one merge each, and the
    last thing the call did was to open the offending file. *)
Theorem unsupported_suffix_fails_when_reached
    (ROOT_CONFIG_FILE : string) (filenames : list string) (w : world) :
  (exists p, p ∈ filenames /\ ~ recognized (suffix p)) ->
  (exists e w',
     build_config_file ROOT_CONFIG_FILE filenames w = (Raise e, w') /\
     fs w' = fs w) /\
  (forall pre bad post,
     filenames = pre ++ bad :: post ->
     (forall p, p ∈ pre -> exists v, parse (fs w) p = Ok v) ->
     is_Some (fs w !! bad) ->
     ~ recognized (suffix bad) ->
     exists w',
       build_config_file ROOT_CONFIG_FILE filenames w
         = (Raise (ValueError (suffix bad)), w') /\
       fs w' = fs w /\
       merges (trace w') = merges (trace w) + length pre /\
       last (trace w') = Some (EvOpen bad)).
Proof.
  intros Hex. split.
  - destruct (merge_files_unsupported filenames (VDict []) w Hex) as [e He].
    destruct (merge_files_frame filenames (VDict []) w) as (Hfs & _).
    rewrite build_config_file_run.
    destruct (merge_files filenames (VDict []) w) as [r w1]. cbn [fst snd] in *.
    subst r. by exists e, w1.
  - intros pre bad post -> Hpre Hbad Hsfx.
    rewrite build_config_file_run, merge_files_app.
    destruct (merge_files_loadable pre (VDict []) w Hpre)
      as (obj & w1 & Hrun & Hfs & Hm).
    rewrite Hrun, merge_files_cons, load_run.
    rewrite parse_unsupported by (rewrite ?Hfs; assumption).
    rewrite Hfs. destruct Hbad as [stream ->].
    eexists. split; [reflexivity|]. cbn [fs trace].
    split; [reflexivity|]. split.
    + unfold merges in *. rewrite List.filter_app, length_app. cbn. lia.
    + apply last_snoc.
Qed.

Lemma unsupported_suffix_fails_when_reached_witness :
  exists w',
    build_config_file sample_root ["base.json"; "notes.toml"; "local.yaml"] sample_world
      = (Raise (ValueError ".toml"), w') /\
    fs w' = fs sample_world /\
    merges (trace w') = 1 /\
    last (trace w') = Some (EvOpen "notes.toml").
Proof.
  refine (proj2 (unsupported_suffix_fails_when_reached sample_root
                   ["base.json"; "notes.toml"; "local.yaml"] sample_world _)
                ["base.json"] "notes.toml" ["local.yaml"] eq_refl _ _ _).
  - exists "notes.toml". split; [right; left|].
    vm_compute. intros [H|[H|H]]; discriminate H.
  - intros p Hp. apply elem_of_cons in Hp as [->|Hp];
      [eexists; vm_compute; reflexivity|by apply elem_of_nil in Hp].
  - vm_compute. eexists. reflexivity.
  - vm_compute. intros [H|[H|H]]; discriminate H.
Defined.

(** C7 as worded fails: in [base.json, notes.toml] the second source has an
    unsupported suffix, and the error for it is raised only after
    [base.json] has been merged. *)
Lemma unsupported_suffix_fails_after_a_merge :
  (exists p, p ∈ ["base.json"; "notes.toml"] /\ ~ recognized (suffix p)) /\
  ~ fails_before_merging sample_root ["base.json"; "notes.toml"] sample_world.
Proof.
  split.
  - exists "notes.toml". split; [right; left|].
    vm_compute. intros [H|[H|H]]; discriminate H.
  - intros (path & w' & _ & _ & Hrun & Hm).
    assert (w' = (build_config_file sample_root ["base.json"; "notes.toml"]
                    sample_world).2) as -> by (rewrite Hrun; reflexivity).
    vm_compute in Hm. discriminate Hm.
Qed.

(** C8: when [build_config_file] raises, whatever the error (unsupported
    suffix, document that does not parse, file that cannot be opened), the
    file system is as it was before the call and the call has dumped
    nothing: the root configuration file is not written. *)
Theorem error_writes_nothing
    (ROOT_CONFIG_FILE : string) (filenames : list string) (w w' : world) (e : exn) :
  build_config_file ROOT_CONFIG_FILE filenames w = (Raise e, w') ->
  fs w' = fs w /\
  exists tr, trace w' = trace w ++ tr /\ Forall (fun ev => is_dump ev = false) tr.
Proof.
  rewrite build_config_file_run.
  pose proof (merge_files_frame filenames (VDict []) w) as Hframe.
  destruct (merge_files filenames (VDict []) w) as [[obj|e1] w1];
    [discriminate|].
  intros [= -> ->]. exact Hframe.
Qed.

Lemma error_writes_nothing_witness :
  let w' := (build_config_file sample_root ["base.json"; "missing.json"] sample_world).2 in
  fs w' = fs sample_world /\
  exists tr, trace w' = trace sample_world ++ tr /\
             Forall (fun ev => is_dump ev = false) tr.
Proof.
  apply (error_writes_nothing sample_root ["base.json"; "missing.json"]
           sample_world _ (FileNotFoundError "missing.json")).
  vm_compute. reflexivity.
Defined.

(** ** The globals of the script *)

(** C9: the returned globals hold every item of the keyword arguments as
    given, whatever the value (a dict replaces a default whole; nothing is
    merged), and under the four standard keys that the keyword arguments
    leave alone they hold the resolved path of the script, the name
    (["__main__"] when none is given) and [None] for the package and the
    cache.  These are all the keys there are.  The function is a plain
    function of its arguments: it has no state to change. *)
Theorem script_globals_defaults_and_overrides
    (resolve : string -> string) (script : string) (name : option string)
    (kwargs : gmap string value) :
  let G := make_script_globals resolve script name kwargs in
  (forall key v, kwargs !! key = Some v -> G !! key = Some v) /\
  (kwargs !! "__file__" = None -> G !! "__file__" = Some (VStr (resolve script))) /\
  (kwargs !! "__name__" = None ->
   G !! "__name__" = Some (VStr (default "__main__" name))) /\
  (kwargs !! "__package__" = None -> G !! "__package__" = Some VNone) /\
  (kwargs !! "__cached__" = None -> G !! "__cached__" = Some VNone) /\
  (forall key, kwargs !! key = None ->
     key ∉ ["__file__"; "__name__"; "__package__"; "__cached__"] ->
     G !! key = None).
Proof.
  cbn zeta. unfold make_script_globals.
  split; [intros key v Hk; by apply lookup_union_Some_l|].
  repeat split.
  1-4: intros Hk; rewrite lookup_union_r by exact Hk; by simplify_map_eq.
  intros key Hk Hnot. rewrite lookup_union_r by exact Hk.
  rewrite !lookup_insert_ne; [apply lookup_empty|..];
    intros <-; apply Hnot; set_solver.
Qed.

Lemma script_globals_defaults_and_overrides_witness :
  let G := make_script_globals sample_resolve "driver.py" None sample_kwargs in
  G !! "__name__" = Some (VStr "worker") /\
  G !! "options" = Some (VDict [("level", VInt 2)]) /\
  G !! "__file__" = Some (VStr "/srv/app/driver.py") /\
  G !! "__package__" = Some VNone /\
  G !! "__cached__" = Some VNone /\
  G !! "name" = None.
Proof.
  destruct (script_globals_defaults_and_overrides
              sample_resolve "driver.py" None sample_kwargs)
    as (Hover & Hfile & _ & Hpackage & Hcached & Hrest).
  split; [apply Hover; vm_compute; reflexivity|].
  split; [apply Hover; vm_compute; reflexivity|].
  split; [apply Hfile; vm_compute; reflexivity|].
  split; [apply Hpackage; vm_compute; reflexivity|].
  split; [apply Hcached; vm_compute; reflexivity|].
  apply Hrest; [vm_compute; reflexivity|].
  intros Hin. repeat (apply elem_of_cons in Hin as [Hin|Hin]; [discriminate Hin|]).
  by apply elem_of_nil in Hin.
Defined.

(** ** Running the script in the process *)

(** Which entry point of [runpy] is called depends on the flag alone, and
    the globals and the run name are passed on in every case. *)
Lemma run_script_runner_and_globals
    (resolve : string -> string) (script : string) (globals : gmap string value)
    (outfile : option string) (write_mode : string) (as_module : bool) :
  let call := run_script resolve script globals outfile write_mode as_module in
  call_runner call = (if as_module then run_module else run_path) /\
  call_init_globals call = globals /\
  call_run_name call = "__main__".
Proof. destruct outfile; repeat split. Qed.

(** What is run depends on the output file alone. *)
Lemma run_script_target
    (resolve : string -> string) (script : string) (globals : gmap string value)
    (outfile : option string) (write_mode : string) (as_module : bool) :
  call_target (run_script resolve script globals outfile write_mode as_module)
  = match outfile with
    | Some _ => stem script
    | None => resolve script
    end.
Proof. destruct outfile; reflexivity. Qed.

(** C10, evaluated where the code departs from it.  For [pkg/driver.py],
    whose base name is [driver]: run as a module with no output file, the
    module looked up is the resolved path of the file, not the base name;
    run as a path with an output file, the path executed is the base name,
    not the path of the file.  The globals and the run name are as
    claimed. *)
Theorem run_target_follows_outfile_not_flag :
  let as_module_call :=
    run_script sample_resolve "pkg/driver.py" sample_kwargs None "w" true in
  let as_path_call :=
    run_script sample_resolve "pkg/driver.py" sample_kwargs (Some "out.log") "w" false in
  stem "pkg/driver.py" = "driver" /\
  call_runner as_module_call = run_module /\
  call_target as_module_call = "/srv/app/pkg/driver.py" /\
  call_runner as_path_call = run_path /\
  call_target as_path_call = "driver" /\
  call_init_globals as_module_call = sample_kwargs /\
  call_run_name as_module_call = "__main__".
Proof. repeat split; vm_compute; reflexivity. Qed.

(** ** The wait loop of the shell-wrapped run *)

Lemma wait_loop_interrupt (outcomes : list wait_outcome) (h : harness) :
  parent_state h = Waiting ->
  wait_loop (KeyboardInterrupt :: outcomes) h
  = wait_loop outcomes {| process := process h;
                          parent_state := Waiting;
                          sent := sent h ++ [SIGINT];
                          child_returncode := child_returncode h |}.
Proof. intros Hw. cbn. rewrite Hw. reflexivity. Qed.



Section ShellWrapped.

Variables (shlex_split : string -> list string) (shlex_quote : string -> string).
Variables (cmd script : string) (outfile : option string) (write_mode : string).

Local Abbreviation run :=
  (wrap_with_shell_command shlex_split shlex_quote cmd script outfile write_mode).


End ShellWrapped.

(** * Further properties of the code *)

(** ** [_merge_dicts] key by key *)

(** X1: the merge of two dicts, looked up at any key: a key the base lacks
    is absent; a key only the base has keeps its value; a key both have
    holds the merge of the two values. *)
Theorem merge_dicts_lookup (o u : pydict) (key : string) :
  exists r,
    _merge_dicts (VDict o) (VDict u) = VDict r /\
    dict_get r key
    = match dict_get o key with
      | None => None
      | Some value =>
          match dict_get u key with
          | None => Some value
          | Some update_key => Some (_merge_dicts value update_key)
          end
      end.
Proof.
  rewrite merge_dicts_unfold. eexists. split; [reflexivity|].
  induction o as [|[k v] o IH]; [reflexivity|].
  cbn [List.map dict_get].
  destruct (decide (k = key)) as [->|Hne].
  - destruct (dict_get u key); cbn [dict_get];
      rewrite decide_True by reflexivity; reflexivity.
  - destruct (dict_get u k); cbn [dict_get];
      rewrite decide_False by exact Hne; exact IH.
Qed.

Lemma merge_dicts_not_both (obj update : value) :
  is_dict obj && is_dict update = false -> _merge_dicts obj update = update.
Proof. destruct obj, update; cbn; intros H; try reflexivity; discriminate. Qed.

(** X2: under a key that both dicts have, as soon as one of the two values
    is not a dict the value of the update is taken as it is: a list, a
    scalar or [None] in the update replaces what the base had, and a dict
    in the update replaces a base value that is not a dict. *)
Theorem merge_dicts_shared_key_replaced
    (o u : pydict) (key : string) (value update_key : value) :
  dict_get o key = Some value ->
  dict_get u key = Some update_key ->
  is_dict value && is_dict update_key = false ->
  exists r, _merge_dicts (VDict o) (VDict u) = VDict r /\
            dict_get r key = Some update_key.
Proof.
  intros Ho Hu Hnot.
  destruct (merge_dicts_lookup o u key) as (r & Hr & Hget).
  exists r. split; [exact Hr|].
  rewrite Hget, Ho, Hu, merge_dicts_not_both by exact Hnot. reflexivity.
Qed.

Lemma merge_dicts_shared_key_replaced_witness :
  exists r, _merge_dicts base_obj local_obj = VDict r /\
            dict_get r "a" = Some VNone.
Proof.
  apply (merge_dicts_shared_key_replaced _ _ "a" (VInt 1) VNone);
    reflexivity.
Defined.

(** X3: an update without keys changes nothing: the base dict comes back
    item for item. *)
Theorem merge_dicts_empty_update (o : pydict) :
  _merge_dicts (VDict o) (VDict []) = VDict o.
Proof.
  rewrite merge_dicts_unfold. f_equal.
  induction o as [|[k v] o IH]; [reflexivity|].
  cbn [List.map dict_get] in IH |- *. by rewrite IH.
Qed.

(** Induction on a value through the values of its dict. *)
Lemma value_dict_ind (P : value -> Prop) :
  (forall v, (forall d, v = VDict d -> Forall (fun item => P item.2) d) -> P v) ->
  forall v, P v.
Proof.
  intros H. fix IH 1. intros [ | | | | |d]; apply H; intros d0 Heq;
    try discriminate Heq.
  injection Heq as <-.
  revert d. fix IHd 1. intros [|[k x] d]; constructor; [apply IH|apply IHd].
Qed.

Lemma dict_get_unique (d : pydict) (key : string) (x : value) :
  NoDup (keys d) -> (key, x) ∈ d -> dict_get d key = Some x.
Proof.
  unfold keys. induction d as [|[k v] d IH]; intros Hnd Hin.
  - by apply elem_of_nil in Hin.
  - cbn [fmap list_fmap fst] in Hnd. apply NoDup_cons in Hnd as [Hk Hnd].
    cbn [dict_get]. apply elem_of_cons in Hin as [[= -> ->]|Hin].
    + by rewrite decide_True.
    + rewrite decide_False; [by apply IH|].
      intros ->. apply Hk. apply list_elem_of_fmap. by exists (key, x).
Qed.

(** X4: merging a value with itself gives the value back: applying the
    same configuration twice changes nothing.  (Python dicts never hold a
    key twice; that is the hypothesis.) *)
Theorem merge_dicts_same (v : value) :
  unique_keys v = true -> _merge_dicts v v = v.
Proof.
  induction v as [v IH] using value_dict_ind. intros Huk.
  destruct v as [ | | | | |d]; try reflexivity.
  specialize (IH d eq_refl). cbn [unique_keys] in Huk.
  apply andb_prop in Huk as [Hnd Hall]. apply bool_decide_eq_true in Hnd.
  rewrite merge_dicts_unfold. f_equal.
  rewrite <- (List.map_id d) at 2. apply List.map_ext_in.
  intros [k x] Hin. apply list_elem_of_In in Hin.
  rewrite (dict_get_unique d k x Hnd Hin). f_equal.
  rewrite Forall_forall in IH. apply (IH (k, x) Hin).
  rewrite forallb_forall in Hall.
  apply (Hall (k, x)). by apply list_elem_of_In.
Qed.

Lemma merge_dicts_same_witness : _merge_dicts base_obj base_obj = base_obj.
Proof. apply merge_dicts_same. vm_compute. reflexivity. Defined.

(** ** [build_config_file]: edge cases, success and failure *)

(** X5: called without sources, [build_config_file] still writes: it
    returns the empty dict and replaces whatever the root configuration
    file held by the dump of the empty dict. *)
Theorem no_sources_write_empty_config (ROOT_CONFIG_FILE : string) (w : world) :
  build_config_file ROOT_CONFIG_FILE [] w
  = (Ok (VDict []),
     {| fs := <[ROOT_CONFIG_FILE := dumped (VDict [])]> (fs w);
        trace := trace w ++ [EvDump ROOT_CONFIG_FILE (VDict [])] |}) /\
  parse (fs (build_config_file ROOT_CONFIG_FILE [] w).2) ROOT_CONFIG_FILE
  = (if decide (recognized (suffix ROOT_CONFIG_FILE)) then Ok (VDict [])
     else Raise (ValueError (suffix ROOT_CONFIG_FILE))).
Proof.
  split; [reflexivity|].
  rewrite build_config_file_run. cbn [merge_files mret M_ret snd fs].
  unfold parse, load, open_read, recognized. rewrite !bind_run. cbn [fs].
  rewrite lookup_insert_eq, !bind_run. cbn.
  repeat case_decide; first [reflexivity | tauto].
Qed.

Lemma merge_files_ok_loadable (filenames : list string) :
  forall (obj obj' : value) (w w1 : world),
    merge_files filenames obj w = (Ok obj', w1) ->
    forall p, p ∈ filenames -> exists v, parse (fs w) p = Ok v.
Proof.
  induction filenames as [|file rest IH]; intros obj obj' w w1 Hrun p Hp.
  - by apply elem_of_nil in Hp.
  - rewrite merge_files_cons, load_run in Hrun.
    destruct (parse (fs w) file) as [file_obj|e] eqn:Hparse; [|discriminate].
    apply elem_of_cons in Hp as [->|Hp]; [by exists file_obj|].
    apply IH with (p := p) in Hrun; [|exact Hp]. cbn [fs] in Hrun.
    by destruct (fs w !! file).
Qed.

Lemma build_returns_loop_result
    (ROOT_CONFIG_FILE : string) (filenames : list string) (w w' : world)
    (obj : value) :
  build_config_file ROOT_CONFIG_FILE filenames w = (Ok obj, w') ->
  (merge_files filenames (VDict []) w).1 = Ok obj.
Proof.
  rewrite build_config_file_run.
  destruct (merge_files filenames (VDict []) w) as [[obj1|e] w1];
    [intros [= -> _]; reflexivity|discriminate].
Qed.

(** What the loop ends with is what a call that returns hands back. *)
Lemma loop_result_is_returned
    (ROOT_CONFIG_FILE : string) (filenames : list string) (w : world) (v : value) :
  (merge_files filenames (VDict []) w).1 = Ok v ->
  forall obj w',
    build_config_file ROOT_CONFIG_FILE filenames w = (Ok obj, w') -> obj = v.
Proof.
  intros Hloop obj w' Hrun. apply build_returns_loop_result in Hrun.
  rewrite Hloop in Hrun. by injection Hrun.
Qed.

(** X6: the loop over the sources runs to its end exactly when every
    source can be loaded: it is there, its suffix is one of the three, and
    its loader accepts it.  So a call that returns has loaded every one of
    its sources.  (What the dump does afterwards is not part of this.) *)
Theorem loop_completes_iff_every_source_loads
    (ROOT_CONFIG_FILE : string) (filenames : list string) (w : world) :
  ((exists obj w1, merge_files filenames (VDict []) w = (Ok obj, w1)) <->
   (forall p, p ∈ filenames -> exists v, parse (fs w) p = Ok v)) /\
  ((exists obj w',
      build_config_file ROOT_CONFIG_FILE filenames w = (Ok obj, w')) ->
   forall p, p ∈ filenames -> exists v, parse (fs w) p = Ok v).
Proof.
  assert ((exists obj w1, merge_files filenames (VDict []) w = (Ok obj, w1)) ->
          forall p, p ∈ filenames -> exists v, parse (fs w) p = Ok v) as Hloads.
  { intros (obj & w1 & Hm). eapply merge_files_ok_loadable, Hm. }
  split; [split; [exact Hloads|]|].
  - intros Hall.
    destruct (merge_files_loadable filenames (VDict []) w Hall)
      as (obj & w1 & Hrun & _). eauto.
  - intros (obj & w' & Hrun). apply Hloads.
    apply build_returns_loop_result in Hrun.
    destruct (merge_files filenames (VDict []) w) as [r w1]. cbn in Hrun.
    subst r. eauto.
Qed.

Lemma loop_completes_iff_every_source_loads_witness :
  exists obj w1,
    merge_files ["base.json"; "items.json"] (VDict []) mixed_world = (Ok obj, w1).
Proof.
  apply (proj2 (proj1 (loop_completes_iff_every_source_loads sample_root
                         ["base.json"; "items.json"] mixed_world))).
  intros p Hp.
  apply elem_of_cons in Hp as [->|Hp]; [eexists; vm_compute; reflexivity|].
  apply elem_of_cons in Hp as [->|Hp]; [eexists; vm_compute; reflexivity|].
  by apply elem_of_nil in Hp.
Defined.

(** X7: when the call succeeds, the object it returns is the object it
    dumped: the root configuration file holds its dump, every other file
    is as before, each source has been merged once, and the dump was the
    last thing done. *)
Theorem success_dumps_what_it_returns
    (ROOT_CONFIG_FILE : string) (filenames : list string) (w w' : world)
    (obj : value) :
  build_config_file ROOT_CONFIG_FILE filenames w = (Ok obj, w') ->
  fs w' = <[ROOT_CONFIG_FILE := dumped obj]> (fs w) /\
  (forall p, p <> ROOT_CONFIG_FILE -> fs w' !! p = fs w !! p) /\
  merges (trace w') = merges (trace w) + length filenames /\
  last (trace w') = Some (EvDump ROOT_CONFIG_FILE obj).
Proof.
  rewrite build_config_file_run.
  destruct (merge_files filenames (VDict []) w) as [[obj1|e] w1] eqn:Hm;
    [|discriminate].
  intros [= -> <-]. cbn [fs trace].
  pose proof (merge_files_ok_loadable _ _ _ _ _ Hm) as Hall.
  destruct (merge_files_loadable filenames (VDict []) w Hall)
    as (obj2 & w2 & Hrun & Hfs & Hcount).
  rewrite Hm in Hrun. injection Hrun as <- <-.
  rewrite Hfs. split; [reflexivity|]. split.
  - intros p Hp. by rewrite lookup_insert_ne.
  - split; [|apply last_snoc].
    unfold merges in *. rewrite List.filter_app, length_app. cbn. lia.
Qed.

Lemma success_dumps_what_it_returns_witness :
  let w' := (build_config_file sample_root ["base.json"; "items.json"] mixed_world).2 in
  fs w' = <[sample_root := dumped items_obj]> (fs mixed_world) /\
  (forall p, p <> sample_root -> fs w' !! p = fs mixed_world !! p) /\
  merges (trace w') = merges (trace mixed_world) + 2 /\
  last (trace w') = Some (EvDump sample_root items_obj).
Proof.
  apply (success_dumps_what_it_returns sample_root ["base.json"; "items.json"]
           mixed_world _ items_obj).
  vm_compute. reflexivity.
Defined.

(** X8: the first source that does not load ends the call with its error,
    after one merge for each source before it and without a write; the
    sources after it play no part. *)
Theorem first_failing_source_decides
    (ROOT_CONFIG_FILE : string) (pre post : list string) (bad : string)
    (e : exn) (w : world) :
  (forall p, p ∈ pre -> exists v, parse (fs w) p = Ok v) ->
  parse (fs w) bad = Raise e ->
  exists w',
    build_config_file ROOT_CONFIG_FILE (pre ++ bad :: post) w = (Raise e, w') /\
    build_config_file ROOT_CONFIG_FILE (pre ++ [bad]) w = (Raise e, w') /\
    fs w' = fs w /\
    merges (trace w') = merges (trace w) + length pre.
Proof.
  intros Hpre Hbad.
  destruct (merge_files_loadable pre (VDict []) w Hpre)
    as (obj & w1 & Hrun & Hfs & Hm).
  rewrite !build_config_file_run, !merge_files_app, Hrun, !merge_files_cons,
    load_run, Hfs, Hbad.
  eexists. split; [reflexivity|]. split; [reflexivity|].
  rewrite <- Hfs.
  destruct (fs w1 !! bad); cbn [fs trace]; split; try reflexivity;
    [unfold merges in *; rewrite List.filter_app, length_app; cbn; lia | exact Hm].
Qed.

Lemma first_failing_source_decides_witness :
  exists w',
    build_config_file sample_root (["base.json"] ++ "broken.json" :: ["absent.json"])
      mixed_world = (Raise JSONDecodeError, w') /\
    build_config_file sample_root (["base.json"] ++ ["broken.json"]) mixed_world
      = (Raise JSONDecodeError, w') /\
    fs w' = fs mixed_world /\
    merges (trace w') = merges (trace mixed_world) + 1.
Proof.
  apply (first_failing_source_decides sample_root ["base.json"] ["absent.json"]
           "broken.json" JSONDecodeError mixed_world).
  - intros p Hp. apply elem_of_cons in Hp as [->|Hp];
      [eexists; vm_compute; reflexivity|by apply elem_of_nil in Hp].
  - vm_compute. reflexivity.
Defined.

(** ** What the merged configuration is *)

Lemma merge_files_fold (filenames : list string) :
  forall (vs : list value) (obj : value) (w : world),
    Forall2 (fun p v => parse (fs w) p = Ok v) filenames vs ->
    (merge_files filenames obj w).1 = Ok (fold_left _merge_dicts vs obj).
Proof.
  induction filenames as [|file rest IH]; intros vs obj w Hall.
  - apply Forall2_nil_inv_l in Hall as ->. reflexivity.
  - apply Forall2_cons_inv_l in Hall as (v & vs' & Hv & Hrest & ->).
    rewrite merge_files_cons, load_run, Hv. cbn [fold_left].
    apply IH. cbn [fs].
    by replace (fs match fs w !! file with Some _ => _ | None => w end)
      with (fs w) by (destruct (fs w !! file); reflexivity).
Qed.

(** X9: when the sources parse to [vs], in this order, the loop ends with
    [_merge_dicts] folded over [vs] from the empty dict, each source merged
    onto the result of the ones before; this is the object a call that
    returns hands back. *)
Theorem loop_result_is_the_fold_of_merges
    (ROOT_CONFIG_FILE : string) (filenames : list string) (vs : list value)
    (w : world) :
  Forall2 (fun p v => parse (fs w) p = Ok v) filenames vs ->
  (merge_files filenames (VDict []) w).1
  = Ok (fold_left _merge_dicts vs (VDict [])) /\
  (forall obj w',
     build_config_file ROOT_CONFIG_FILE filenames w = (Ok obj, w') ->
     obj = fold_left _merge_dicts vs (VDict [])).
Proof.
  intros Hall.
  pose proof (merge_files_fold filenames vs (VDict []) w Hall) as Hfold.
  split; [exact Hfold|]. by apply loop_result_is_returned.
Qed.

Lemma loop_result_is_the_fold_of_merges_witness :
  (merge_files ["items.json"; "base.json"; "deep.yml"] (VDict []) mixed_world).1
  = Ok (fold_left _merge_dicts [items_obj; base_obj; deep_obj] (VDict [])).
Proof.
  apply (loop_result_is_the_fold_of_merges sample_root).
  repeat (constructor; [vm_compute; reflexivity|]). constructor.
Defined.

(** X10: a last source that parses to something other than a dict (a list,
    a scalar, null) becomes the whole result of the loop, whatever came
    before it; a call that returns hands back that value, not a dict. *)
Theorem last_source_not_a_dict_replaces_all
    (ROOT_CONFIG_FILE : string) (pre : list string) (last_file : string)
    (v : value) (w : world) :
  (forall p, p ∈ pre -> exists x, parse (fs w) p = Ok x) ->
  parse (fs w) last_file = Ok v ->
  is_dict v = false ->
  (merge_files (pre ++ [last_file]) (VDict []) w).1 = Ok v /\
  (forall obj w',
     build_config_file ROOT_CONFIG_FILE (pre ++ [last_file]) w = (Ok obj, w') ->
     obj = v).
Proof.
  intros Hpre Hlast Hv.
  assert ((merge_files (pre ++ [last_file]) (VDict []) w).1 = Ok v) as Hloop.
  { destruct (merge_files_loadable pre (VDict []) w Hpre)
      as (obj & w1 & Hrun & Hfs & _).
    rewrite merge_files_app, Hrun, merge_files_cons, load_run, Hfs, Hlast.
    cbn. rewrite merge_dicts_not_both; [reflexivity|].
    rewrite Hv. apply andb_false_r. }
  split; [exact Hloop|]. by apply loop_result_is_returned.
Qed.

Lemma last_source_not_a_dict_replaces_all_witness :
  (merge_files (["base.json"] ++ ["items.json"]) (VDict []) mixed_world).1
  = Ok items_obj.
Proof.
  apply (last_source_not_a_dict_replaces_all sample_root);
    [|vm_compute; reflexivity|reflexivity].
  intros p Hp. apply elem_of_cons in Hp as [->|Hp];
    [eexists; vm_compute; reflexivity|by apply elem_of_nil in Hp].
Defined.

(** X11: a source that is not a dict wipes what came before it, and the
    source after it is then taken whole: when that one is the last, the
    loop ends with it exactly as parsed, with all its keys, and a call that
    returns hands it back. *)
Theorem source_after_a_non_dict_is_taken_whole
    (ROOT_CONFIG_FILE : string) (pre : list string) (plain next : string)
    (x v : value) (w : world) :
  (forall p, p ∈ pre -> exists y, parse (fs w) p = Ok y) ->
  parse (fs w) plain = Ok x ->
  is_dict x = false ->
  parse (fs w) next = Ok v ->
  (merge_files (pre ++ [plain; next]) (VDict []) w).1 = Ok v /\
  (forall obj w',
     build_config_file ROOT_CONFIG_FILE (pre ++ [plain; next]) w = (Ok obj, w') ->
     obj = v).
Proof.
  intros Hpre Hplain Hx Hnext.
  assert ((merge_files (pre ++ [plain; next]) (VDict []) w).1 = Ok v) as Hloop.
  { destruct (merge_files_loadable pre (VDict []) w Hpre)
      as (obj & w1 & Hrun & Hfs & _).
    rewrite merge_files_app, Hrun, merge_files_cons, load_run, Hfs, Hplain.
    rewrite merge_files_cons, load_run. cbn [fs].
    replace (fs match fs w !! plain with Some _ => _ | None => w1 end) with (fs w)
      by (destruct (fs w !! plain); [reflexivity|exact (eq_sym Hfs)]).
    rewrite Hnext. cbn.
    rewrite (merge_dicts_not_both obj x) by (rewrite Hx; apply andb_false_r).
    rewrite merge_dicts_not_both; [reflexivity|]. by rewrite Hx. }
  split; [exact Hloop|]. by apply loop_result_is_returned.
Qed.

Lemma source_after_a_non_dict_is_taken_whole_witness :
  (merge_files ([] ++ ["items.json"; "base.json"]) (VDict []) mixed_world).1
  = Ok base_obj.
Proof.
  apply (source_after_a_non_dict_is_taken_whole sample_root []
           "items.json" "base.json" items_obj base_obj mixed_world);
    [|vm_compute; reflexivity|reflexivity|vm_compute; reflexivity].
  intros p Hp. by apply elem_of_nil in Hp.
Defined.

(** ** The globals of the script, further *)

(** X14: the keys of the globals are the keys of the keyword arguments
    together with the four standard keys, so the four are always there; a
    call without keyword arguments gives exactly four entries. *)
Theorem script_globals_keys
    (resolve : string -> string) (script : string) (name : option string)
    (kwargs : gmap string value) :
  dom (make_script_globals resolve script name kwargs)
  = dom kwargs ∪ {["__file__"; "__name__"; "__package__"; "__cached__"]} /\
  size (make_script_globals resolve script name ∅) = 4.
Proof.
  unfold make_script_globals. split.
  - rewrite dom_union_L, !dom_insert_L, dom_empty_L. set_solver.
  - rewrite (left_id_L ∅ (∪)).
    rewrite !map_size_insert_None, map_size_empty; [reflexivity|..];
      by simplify_map_eq.
Qed.

(** ** The shell-wrapped run, further *)

Lemma wait_loop_from_waiting (p : popen) (outcomes : list wait_outcome) :
  forall (signals : list signal),
    wait_loop outcomes {| process := p; parent_state := Waiting;
                          sent := signals; child_returncode := None |}
    = {| process := p;
         parent_state := match first_return outcomes with
                         | Some _ => Exited 0
                         | None => Waiting
                         end;
         sent := signals ++ replicate (interrupts_before_exit outcomes) SIGINT;
         child_returncode := first_return outcomes |}.
Proof.
  induction outcomes as [|[returncode|] outcomes IH]; intros signals.
  - cbn. by rewrite app_nil_r.
  - cbn. by rewrite app_nil_r.
  - rewrite wait_loop_interrupt by reflexivity.
    cbn [process parent_state sent child_returncode].
    rewrite IH. cbn [first_return interrupts_before_exit replicate].
    by rewrite <- app_assoc.
Qed.

Lemma first_return_app_returns (pre rest : list wait_outcome) (returncode : Z) :
  first_return (pre ++ Returns returncode :: rest)
  = first_return (pre ++ [Returns returncode]) /\
  interrupts_before_exit (pre ++ Returns returncode :: rest)
  = interrupts_before_exit (pre ++ [Returns returncode]).
Proof.
  induction pre as [|[c|] pre [IH1 IH2]]; cbn; [done..|].
  by rewrite IH1, IH2.
Qed.

Section ShellWrappedFurther.

Variables (shlex_split : string -> list string) (shlex_quote : string -> string).
Variables (cmd script : string) (outfile : option string) (write_mode : string).

Local Abbreviation run :=
  (wrap_with_shell_command shlex_split shlex_quote cmd script outfile write_mode).

(** The run of [wait_loop] in closed form: the parent has exited, with
    status 0, exactly when some [process.wait()] returned; the return code
    kept is that of the first one that did; and one [SIGINT] has been sent
    for each wait that was interrupted before it. *)
Lemma wait_loop_closed_form (outcomes : list wait_outcome) :
  run outcomes
  = {| process := process (run []);
       parent_state := match first_return outcomes with
                       | Some _ => Exited 0
                       | None => Waiting
                       end;
       sent := replicate (interrupts_before_exit outcomes) SIGINT;
       child_returncode := first_return outcomes |}.
Proof.
  unfold wrap_with_shell_command, spawned. cbn [wait_loop process].
  apply wait_loop_from_waiting.
Qed.

(** X17: once the child has exited nothing more is done: whatever would
    have come after the return of [process.wait()], interrupts included,
    leaves the run as it was, and no further signal is sent. *)
Theorem nothing_happens_after_child_exit
    (pre rest : list wait_outcome) (returncode : Z) :
  run (pre ++ Returns returncode :: rest) = run (pre ++ [Returns returncode]).
Proof.
  rewrite (wait_loop_closed_form (pre ++ Returns returncode :: rest)),
    (wait_loop_closed_form (pre ++ [Returns returncode])).
  destruct (first_return_app_returns pre rest returncode) as [-> ->].
  reflexivity.
Qed.

End ShellWrappedFurther.

(** ** Shape of the merged value *)

Lemma dict_get_elem_of (d : pydict) (key : string) (x : value) :
  dict_get d key = Some x -> (key, x) ∈ d.
Proof.
  induction d as [|[k v] d IH]; [discriminate|]. cbn [dict_get].
  case_decide as Hk; [intros [= ->]; subst; left|intros H; right; by apply IH].
Qed.

Lemma unique_keys_dict (d : pydict) :
  unique_keys (VDict d) = true <->
  NoDup (keys d) /\ forall k x, (k, x) ∈ d -> unique_keys x = true.
Proof.
  cbn [unique_keys]. rewrite andb_true_iff, bool_decide_eq_true, forallb_forall.
  split; intros [Hnd Hall]; (split; [exact Hnd|]).
  - intros k x Hin. apply (Hall (k, x)). by apply list_elem_of_In.
  - intros [k x] Hin. apply (Hall k x). by apply list_elem_of_In.
Qed.

(** X18: merging values in which no dict holds a key twice gives such a
    value again. *)
Theorem merge_dicts_keeps_keys_unique (obj : value) :
  forall update : value,
    unique_keys obj = true -> unique_keys update = true ->
    unique_keys (_merge_dicts obj update) = true.
Proof.
  induction obj as [obj IH] using value_dict_ind. intros update Hobj Hupd.
  destruct (is_dict obj && is_dict update) eqn:Hboth;
    [|by rewrite merge_dicts_not_both].
  destruct obj as [ | | | | |o]; try discriminate.
  destruct update as [ | | | | |u]; try discriminate.
  specialize (IH o eq_refl). rewrite Forall_forall in IH.
  apply unique_keys_dict in Hobj as [Hnd Ho].
  apply unique_keys_dict in Hupd as [_ Hu].
  destruct (merge_dicts_keys o u) as (r & Hr & Hkeys).
  rewrite Hr. apply unique_keys_dict. rewrite Hkeys. split; [exact Hnd|].
  intros k x Hin. rewrite merge_dicts_unfold in Hr. injection Hr as <-.
  apply list_elem_of_In, List.in_map_iff in Hin as ([k0 x0] & Heq & Hin0).
  apply list_elem_of_In in Hin0.
  destruct (dict_get u k0) as [ux|] eqn:Hux; injection Heq as <- <-.
  - apply (IH (k0, x0) Hin0); [by apply (Ho k0)|].
    apply (Hu k0). by apply dict_get_elem_of.
  - by apply (Ho k0).
Qed.

Lemma merge_dicts_keeps_keys_unique_witness :
  unique_keys (_merge_dicts base_obj deep_obj) = true.
Proof. apply merge_dicts_keeps_keys_unique; vm_compute; reflexivity. Defined.

(** X19: with at least one source, the loop ends with a dict exactly when
    its last source parses to a dict; what the earlier sources hold does
    not matter for this.  A call that returns hands back that object. *)
Theorem loop_result_is_a_dict_iff_last_source_is
    (ROOT_CONFIG_FILE : string) (pre : list string) (last_file : string)
    (v : value) (w : world) :
  (forall p, p ∈ pre -> exists x, parse (fs w) p = Ok x) ->
  parse (fs w) last_file = Ok v ->
  exists acc,
    (merge_files (pre ++ [last_file]) (VDict []) w).1 = Ok acc /\
    is_dict acc = is_dict v /\
    (forall obj w',
       build_config_file ROOT_CONFIG_FILE (pre ++ [last_file]) w = (Ok obj, w') ->
       obj = acc).
Proof.
  intros Hpre Hlast.
  destruct (merge_files_loadable pre (VDict []) w Hpre)
    as (acc & w1 & Hrun & Hfs & _).
  exists (_merge_dicts acc v).
  assert ((merge_files (pre ++ [last_file]) (VDict []) w).1
          = Ok (_merge_dicts acc v)) as Hloop.
  { rewrite merge_files_app, Hrun, merge_files_cons, load_run, Hfs, Hlast.
    reflexivity. }
  split; [exact Hloop|]. split; [destruct acc, v; reflexivity|].
  by apply loop_result_is_returned.
Qed.

Lemma loop_result_is_a_dict_iff_last_source_is_witness :
  exists acc,
    (merge_files (["items.json"; "base.json"] ++ ["deep.yml"]) (VDict [])
       mixed_world).1 = Ok acc /\
    is_dict acc = is_dict deep_obj /\
    (forall obj w',
       build_config_file sample_root (["items.json"; "base.json"] ++ ["deep.yml"])
         mixed_world = (Ok obj, w') ->
       obj = acc).
Proof.
  apply loop_result_is_a_dict_iff_last_source_is; [|vm_compute; reflexivity].
  intros p Hp.
  apply elem_of_cons in Hp as [->|Hp]; [eexists; vm_compute; reflexivity|].
  apply elem_of_cons in Hp as [->|Hp]; [eexists; vm_compute; reflexivity|].
  by apply elem_of_nil in Hp.
Defined.

(** ** The wait loop, signal by signal *)

Lemma signal_loop_cons (r : round) (rest : list round) (s : signal_run) :
  signal_loop (r :: rest) s
  = match ending (signal_round r s) with
    | InLoop => signal_loop rest (signal_round r s)
    | _ => signal_round r s
    end.
Proof. reflexivity. Qed.

(** Once the child is collected nothing more is sent to it. *)
Lemma signal_loop_collected (rounds : list round) :
  forall s : signal_run,
    is_Some (child_collected s) ->
    forwarded (signal_loop rounds s) = forwarded s.
Proof.
  induction rounds as [|r rest IH]; intros s [code Hcode]; [reflexivity|].
  rewrite signal_loop_cons.
  destruct r as [returncode|merged collected [|signal_sent]];
    cbn [signal_round ending]; rewrite Hcode.
  - reflexivity.
  - rewrite IH by (cbn; eauto). cbn. by rewrite app_nil_r.
  - cbn. destruct signal_sent; by rewrite app_nil_r.
Qed.

(** Never more signals sent than received. *)
Lemma signal_loop_bound (rounds : list round) :
  forall s : signal_run,
    length (forwarded (signal_loop rounds s)) + received_in_wait s
    <= received_in_wait (signal_loop rounds s) + length (forwarded s).
Proof.
  induction rounds as [|r rest IH]; intros s; [cbn; lia|].
  rewrite signal_loop_cons.
  destruct r as [returncode|merged collected [|signal_sent]];
    cbn [signal_round ending]; [cbn; lia| |].
  - match goal with |- context [signal_loop rest ?s1] => specialize (IH s1) end.
    cbn [received_in_wait forwarded] in IH. rewrite length_app in IH.
    destruct (child_collected s), collected; cbn in IH; lia.
  - cbn [received_in_wait forwarded]. rewrite length_app.
    destruct signal_sent, (child_collected s), collected; cbn; lia.
Qed.

(** How the loop can end when no signal arrives in a handler. *)
Lemma signal_loop_ending (rounds : list round) :
  forall s : signal_run,
    Forall (fun r => handler_completes r = true) rounds ->
    ending s = InLoop ->
    match ending (signal_loop rounds s) with
    | InLoop => forall returncode, WaitReturns returncode ∉ rounds
    | ExitZero =>
        is_Some (child_collected (signal_loop rounds s)) /\
        exists returncode, WaitReturns returncode ∈ rounds
    | UncaughtKeyboardInterrupt => False
    end.
Proof.
  induction rounds as [|r rest IH]; intros s Hall Hs.
  - cbn. rewrite Hs. intros c Hc. by apply elem_of_nil in Hc.
  - apply Forall_cons in Hall as [Hr Hall]. rewrite signal_loop_cons.
    destruct r as [returncode|merged collected [|signal_sent]];
      try discriminate Hr; cbn [signal_round ending].
    + split; [destruct (child_collected s); cbn; eauto|].
      exists returncode. left.
    + match goal with |- context [signal_loop rest ?s1] =>
        specialize (IH s1 Hall eq_refl); destruct (ending (signal_loop rest s1))
      end.
      * intros c Hin. apply elem_of_cons in Hin as [Hin|Hin]; [discriminate|].
        by apply (IH c).
      * destruct IH as [Hc [c Hin]]. split; [exact Hc|]. exists c. by right.
      * exact IH.
Qed.

(** What has been sent when no signal arrives in a handler. *)
Lemma signal_loop_forwarded (rounds : list round) :
  forall s : signal_run,
    Forall (fun r => handler_completes r = true) rounds ->
    child_collected s = None ->
    forwarded (signal_loop rounds s)
    = forwarded s ++ replicate (answered rounds) SIGINT.
Proof.
  induction rounds as [|r rest IH]; intros s Hall Hs.
  - cbn. by rewrite app_nil_r.
  - apply Forall_cons in Hall as [Hr Hall]. rewrite signal_loop_cons.
    destruct r as [returncode|merged [code|] [|signal_sent]];
      try discriminate Hr; cbn [signal_round ending answered]; rewrite Hs.
    + cbn. by rewrite app_nil_r.
    + rewrite signal_loop_collected by (cbn; eauto). reflexivity.
    + rewrite IH by (cbn; done). cbn. by rewrite <- app_assoc.
Qed.

(** C5, as the code has it.  In every run in which no signal arrives while
    the handler itself is running: each [KeyboardInterrupt] that
    [process.wait()] raises while the child is still running is answered by
    one [SIGINT] to the child, however many signals it stands for, and the
    parent then waits again; the parent never ends on the interrupt; it
    leaves the loop only through [exit(0)], after [process.wait()] has
    returned and the child has been collected; and never more signals go
    to the child than the parent received. *)
Theorem interrupted_waits_are_answered (rounds : list round) :
  Forall (fun r => handler_completes r = true) rounds ->
  forwarded (signal_loop rounds started) = replicate (answered rounds) SIGINT /\
  length (forwarded (signal_loop rounds started))
  <= received_in_wait (signal_loop rounds started) /\
  match ending (signal_loop rounds started) with
  | InLoop => forall returncode, WaitReturns returncode ∉ rounds
  | ExitZero =>
      is_Some (child_collected (signal_loop rounds started)) /\
      exists returncode, WaitReturns returncode ∈ rounds
  | UncaughtKeyboardInterrupt => False
  end.
Proof.
  intros Hall. split; [exact (signal_loop_forwarded rounds started Hall eq_refl)|].
  split; [|exact (signal_loop_ending rounds started Hall eq_refl)].
  pose proof (signal_loop_bound rounds started) as Hb. cbn in Hb. lia.
Qed.

Lemma interrupted_waits_are_answered_witness :
  let rounds := [WaitInterrupted 1 None HandlerCompletes;
                 WaitInterrupted 0 None HandlerCompletes;
                 WaitReturns 3] in
  forwarded (signal_loop rounds started) = [SIGINT; SIGINT] /\
  length (forwarded (signal_loop rounds started))
  <= received_in_wait (signal_loop rounds started) /\
  is_Some (child_collected (signal_loop rounds started)) /\
  exists returncode, WaitReturns returncode ∈ rounds.
Proof.
  cbn zeta.
  destruct (interrupted_waits_are_answered
              [WaitInterrupted 1 None HandlerCompletes;
               WaitInterrupted 0 None HandlerCompletes;
               WaitReturns 3]) as (Hsent & Hbound & Hend).
  - repeat constructor.
  - split; [exact Hsent|]. split; [exact Hbound|exact Hend].
Defined.

(** C5 as worded fails.  Two signals that reach the parent during one
    [process.wait()] surface as one [KeyboardInterrupt] and are sent on
    once: two received, one forwarded.  And a signal that arrives while
    the handler runs ends the parent although the child has not exited. *)
Lemma interrupts_are_not_all_forwarded :
  ~ forwards_every_interrupt [WaitInterrupted 1 None HandlerCompletes; WaitReturns 0] /\
  ~ forwards_every_interrupt [WaitInterrupted 0 None (HandlerInterrupted true)].
Proof.
  split; intros [Hexit Hcount].
  - vm_compute in Hcount. discriminate Hcount.
  - destruct Hexit as [code Hcode]; [vm_compute; discriminate|].
    vm_compute in Hcode. discriminate Hcode.
Qed.

(** On rounds with one signal each, a running child and a handler left
    alone, the two views of the loop agree. *)
Lemma signal_loop_plain (outcomes : list wait_outcome) :
  forall (n : nat) (signals : list signal),
    signal_loop (plain_round <$> outcomes)
      {| ending := InLoop; received_in_wait := n; forwarded := signals;
         child_collected := None |}
    = {| ending := match first_return outcomes with
                   | Some _ => ExitZero
                   | None => InLoop
                   end;
         received_in_wait := n + interrupts_before_exit outcomes;
         forwarded := signals ++ replicate (interrupts_before_exit outcomes) SIGINT;
         child_collected := first_return outcomes |}.
Proof.
  induction outcomes as [|[returncode|] outcomes IH]; intros n signals.
  - cbn. by rewrite Nat.add_0_r, app_nil_r.
  - cbn. by rewrite Nat.add_0_r, app_nil_r.
  - cbn [fmap list_fmap plain_round]. rewrite signal_loop_cons.
    cbn [signal_round ending child_collected received_in_wait forwarded].
    rewrite IH. cbn [first_return interrupts_before_exit replicate].
    f_equal; [lia|by rewrite <- app_assoc].
Qed.

Lemma wait_loop_is_signal_loop (p : popen) (outcomes : list wait_outcome) :
  let h := wait_loop outcomes (spawned p) in
  let s := signal_loop (plain_round <$> outcomes) started in
  forwarded s = sent h /\
  child_collected s = child_returncode h /\
  received_in_wait s = length (sent h) /\
  ending s = match parent_state h with
             | Waiting => InLoop
             | Exited _ => ExitZero
             end.
Proof.
  cbn zeta. unfold spawned, started.
  rewrite wait_loop_from_waiting, signal_loop_plain. cbn.
  rewrite length_replicate. repeat split.
  destruct (first_return outcomes); reflexivity.
Qed.
